(** * Corrade Interconnect::StateMachine

    A shallow embedding of [src/Interconnect/StateMachine.h] and the
    properties of its transition table, stepping and signal dispatch.

    The class template [StateMachine<states, inputs, State, Input>] is
    embedded over two section variables [states] and [inputs].  [State] and
    [Input] are enums "with consecutive values starting from 0", so a value
    is represented by its ordinal and the casts [State(i)], [Input(j)] and
    [std::size_t(s)] are the identity on ordinals.  The member array
    [State _transitions[states*inputs]] is a list read with stdpp's lookup
    and written with stdpp's insert; an access outside the array is
    undefined behaviour in C++ and is an explicit outcome here. *)

From stdpp Require Import base list.
From Stdlib Require Import Lia.

(** ** Data *)

Abbreviation State := nat (only parsing).
Abbreviation Input := nat (only parsing).

(** [StateTransition<State, Input>]: the three private members. *)
Record StateTransition := mkTransition {
  from : State;
  input : Input;
  to : State
}.

(** The signals of the class: [entered<state>()] and [exited<state>()] are
    distinct member function templates, one signal per template argument. *)
Inductive Signal :=
| entered (state : State)
| exited (state : State).

(** One emission handed to the [Emitter] base class: the signal, and the
    value [current()] returns to a slot that runs during that emission. *)
Record Emission := mkEmission {
  signal : Signal;
  current_during : State
}.

(** The object: the [Emitter] base (here the emissions it has delivered, in
    order) and the two data members. *)
Record StateMachine := mkStateMachine {
  delivered : list Emission;
  _transitions : list State;
  _current : State
}.

(** What an assertion prints when it fires. *)
Inductive AssertMessage :=
| OutOfBoundsState (from_ : nat) (input_ : nat) (to_ : nat)
| Unreachable.

(** How a member function ends. *)
Inductive Outcome (A : Type) :=
| Returned (a : A)
| AssertFailed (msg : AssertMessage)
| UndefinedBehaviour.
Arguments Returned {A} a.
Arguments AssertFailed {A} msg.
Arguments UndefinedBehaviour {A}.

(** ** Member functions as state transformers over the object *)

Definition M (A : Type) : Type := StateMachine -> Outcome A * StateMachine.

#[global] Instance M_ret : MRet M := fun A a m => (Returned a, m).

#[global] Instance M_bind : MBind M := fun A B k c m =>
  match c m with
  | (Returned a, m') => k a m'
  | (AssertFailed msg, m') => (AssertFailed msg, m')
  | (UndefinedBehaviour, m') => (UndefinedBehaviour, m')
  end.

(** Range-based [for] and the counting [for(i = 0; i != n; ++i)]. *)
Fixpoint for_each {A} (l : list A) (body : A -> M unit) : M unit :=
  match l with
  | [] => mret tt
  | x :: l' => body x;; for_each l' body
  end.

Definition for_upto (n : nat) (body : nat -> M unit) : M unit :=
  for_each (seq 0 n) body.

(** Reading and writing an element of [_transitions] through an index. *)
Definition load (idx : nat) : M State :=
  fun m =>
    match _transitions m !! idx with
    | Some s => (Returned s, m)
    | None => (UndefinedBehaviour, m)
    end.

Definition store (idx : nat) (s : State) : M unit :=
  fun m =>
    if decide (idx < length (_transitions m))
    then (Returned tt,
          mkStateMachine (delivered m) (<[idx := s]> (_transitions m)) (_current m))
    else (UndefinedBehaviour, m).

Definition get_current : M State := fun m => (Returned (_current m), m).

Definition set_current (s : State) : M unit :=
  fun m => (Returned tt, mkStateMachine (delivered m) (_transitions m) s).

(** [emit(&StateMachine::entered<state>)]: the emitter runs the connected
    slots; what is kept is which signal it was and what the slots could
    read from [current()].  Slots belong to the clients of the class, not
    to it: they are taken to read the machine only, so a slot that calls
    [step] again from inside an emission is outside this embedding. *)
Definition emit (sig : Signal) : M unit :=
  fun m =>
    (Returned tt,
     mkStateMachine (delivered m ++ [mkEmission sig (_current m)])
                    (_transitions m) (_current m)).

(** Modelled from the spec: the macros [CORRADE_ASSERT] and
    [CORRADE_ASSERT_UNREACHABLE] ([Utility/Assert.h] is not part of the
    sources).  A violated precondition is "reported immediately at the
    configuration call via the diagnostic boundary" and "entries processed
    before the bad one remain applied": the macro prints its message and
    leaves the enclosing function (its third argument is the value to
    return, empty in a [void] function).  Reaching the unreachable marker is
    "fatal". *)
Definition CORRADE_ASSERT (condition : bool) (message : AssertMessage) : M unit :=
  fun m => if condition then (Returned tt, m) else (AssertFailed message, m).

Definition CORRADE_ASSERT_UNREACHABLE {A} : M A :=
  fun m => (AssertFailed Unreachable, m).

Section Machine.

Variables states inputs : nat.

(** [at(current, input)]: the element [current*inputs + input]. *)
Definition at_ (current : State) (inp : Input) : nat :=
  current * inputs + inp.

(** [enteredInternal(wanted, std::integral_constant<std::size_t, current>)]:
    the overload for [current = 0] is the unreachable one. *)
Fixpoint enteredInternal (wanted : State) (current : nat) : M unit :=
  match current with
  | 0 => CORRADE_ASSERT_UNREACHABLE
  | S current_1 =>
      if decide (current_1 = wanted)
      then emit (entered current_1)
      else enteredInternal wanted current_1
  end.

Fixpoint exitedInternal (wanted : State) (current : nat) : M unit :=
  match current with
  | 0 => CORRADE_ASSERT_UNREACHABLE
  | S current_1 =>
      if decide (current_1 = wanted)
      then emit (exited current_1)
      else exitedInternal wanted current_1
  end.

(** The object before the constructor body runs: [_transitions{}] and
    [_current{}] value-initialise to ordinal 0, nothing emitted yet. *)
Definition value_initialised : StateMachine :=
  mkStateMachine [] (replicate (states * inputs) 0) 0.

(** The constructor body. *)
Definition StateMachine_ctor : M unit :=
  for_upto states (fun i =>
    for_upto inputs (fun j =>
      store (at_ i j) i)).

(** The condition of the assertion in [addTransitions]. *)
Definition in_bounds (t : StateTransition) : bool :=
  (from t <? states) && (input t <? inputs) && (to t <? states).

Definition addTransitions (transitions : list StateTransition) : M unit :=
  for_each transitions (fun transition =>
    CORRADE_ASSERT (in_bounds transition)
      (OutOfBoundsState (from transition) (input transition) (to transition));;
    store (at_ (from transition) (input transition)) (to transition)).

(** [step]: the argument [_current = next] of [enteredInternal] is
    evaluated, and so assigned, before that call and after the call of
    [exitedInternal]. *)
Definition step (inp : Input) : M unit :=
  cur ← get_current;
  next ← load (at_ cur inp);
  if decide (next ≠ cur)
  then
    exitedInternal cur states;;
    set_current next;;
    wanted ← get_current;
    enteredInternal wanted states
  else mret tt.

(** [current()] *)
Definition current (m : StateMachine) : State := _current m.

(** The [const] overload of [at]: the cell a reader of the table sees. *)
Definition cell (m : StateMachine) (s : State) (inp : Input) : option State :=
  _transitions m !! at_ s inp.

(** A freshly constructed machine. *)
Definition constructed : Outcome unit * StateMachine :=
  StateMachine_ctor value_initialised.

(** *** Vocabulary of the statements *)

(** The cell a transition configures. *)
Definition key (t : StateTransition) : State * Input := (from t, input t).

(** The array has its declared extent. *)
Definition well_sized (m : StateMachine) : Prop :=
  length (_transitions m) = states * inputs.

(** The table invariant: declared extent, every cell and the current state
    inside the state universe. *)
Record table_invariant (m : StateMachine) : Prop := mkInvariant {
  inv_size : well_sized m;
  inv_cells : Forall (fun s => s < states) (_transitions m);
  inv_current : _current m < states
}.

(** What the outer loop of the constructor has established after [k] rows. *)
Definition rows_done (k : nat) (m : StateMachine) : Prop :=
  delivered m = [] /\ _current m = 0 /\ well_sized m /\
  forall s i, s < k -> i < inputs -> cell m s i = Some s.

(** The transitions of a call that pass the assertion before the first one
    that does not, and that first one. *)
Fixpoint accepted (ts : list StateTransition) : list StateTransition :=
  match ts with
  | [] => []
  | t :: ts' => if in_bounds t then t :: accepted ts' else []
  end.

Fixpoint first_rejected (ts : list StateTransition) : option StateTransition :=
  match ts with
  | [] => None
  | t :: ts' => if in_bounds t then first_rejected ts' else Some t
  end.

(** Writing a list of transitions into an array, in list order. *)
Definition write_all (ts : list StateTransition) (tbl : list State) : list State :=
  foldl (fun acc t => <[at_ (from t) (input t) := to t]> acc) tbl ts.

(** The public mutating operations, and a client that constructs a machine
    and then performs a list of them. *)
Inductive Operation :=
| AddTransitions (ts : list StateTransition)
| Step (inp : Input).

Definition perform (op : Operation) : M unit :=
  match op with
  | AddTransitions ts => addTransitions ts
  | Step inp => step inp
  end.

Definition in_range (op : Operation) : Prop :=
  match op with
  | AddTransitions ts => Forall (fun t => in_bounds t = true) ts
  | Step inp => inp < inputs
  end.

Definition lifetime (ops : list Operation) : Outcome unit * StateMachine :=
  (StateMachine_ctor;; for_each ops perform) value_initialised.

End Machine.

(** The printer of the class documentation: 3 states, 2 inputs. *)
Module Printer.
Definition Ready : State := 0.
Definition Printing : State := 1.
Definition Finished : State := 2.
Definition Operate : Input := 0.
Definition RemoveDocument : Input := 1.

Definition table : list StateTransition :=
  [ mkTransition Ready Operate Printing;
    mkTransition Printing Operate Finished;
    mkTransition Finished RemoveDocument Ready ].

Definition configured : StateMachine :=
  ((StateMachine_ctor 3 2;; addTransitions 3 2 table) (value_initialised 3 2)).2.
End Printer.

(** ** Further vocabulary *)

#[global] Instance Signal_eq_dec : EqDecision Signal.
Proof. solve_decision. Defined.

#[global] Instance Emission_eq_dec : EqDecision Emission.
Proof. solve_decision. Defined.

(** The target a list of transitions leaves in the cell [(s, inp)]: that
    of the last transition of the list that names the cell, if any does. *)
Fixpoint last_target (ts : list StateTransition) (s : State) (inp : Input)
  : option State :=
  match ts with
  | [] => None
  | t :: ts' =>
      match last_target ts' s inp with
      | Some target => Some target
      | None => if decide (key t = (s, inp)) then Some (to t) else None
      end
  end.

(** The cells named, and the states targeted, by the [addTransitions] calls
    among a list of operations. *)
Definition named (ops : list Operation) : list (State * Input) :=
  flat_map (fun op => match op with
                      | AddTransitions ts => key <$> ts
                      | Step _ => []
                      end) ops.

Definition targets (ops : list Operation) : list State :=
  flat_map (fun op => match op with
                      | AddTransitions ts => to <$> ts
                      | Step _ => []
                      end) ops.

(** Reading a log of emissions as a walk that starts in [start]: the log
    has to consist of pairs, [exited] of the state the walk is in, seen
    while [current()] is that state, then [entered] of a different state,
    seen while [current()] is the new one.  The result is the state the
    walk ends in, or [None] when the log is not of that shape. *)
Fixpoint walk (start : State) (log : list Emission) : option State :=
  match log with
  | [] => Some start
  | [_] => None
  | e1 :: e2 :: log' =>
      match signal e2 with
      | entered next =>
          if decide (e1 = mkEmission (exited start) start /\
                     current_during e2 = next /\ next <> start)
          then walk next log'
          else None
      | exited _ => None
      end
  end.

(** ** Properties *)

Section Properties.

Context (states inputs : nat).

Implicit Types (m : StateMachine) (t : StateTransition) (ts : list StateTransition).

(** *** The monad *)

Lemma bind_returned {A B} (c : M A) (k : A -> M B) m a m' :
  c m = (Returned a, m') -> (c ≫= k) m = k a m'.
Proof. intros H. unfold mbind, M_bind. by rewrite H. Qed.

Lemma bind_assert_failed {A B} (c : M A) (k : A -> M B) m msg m' :
  c m = (AssertFailed msg, m') -> (c ≫= k) m = (AssertFailed msg, m').
Proof. intros H. unfold mbind, M_bind. by rewrite H. Qed.

Lemma for_each_app {A} (l1 l2 : list A) (body : A -> M unit) m :
  for_each (l1 ++ l2) body m = (for_each l1 body;; for_each l2 body) m.
Proof.
  revert m. induction l1 as [|x l1 IH]; intros m; simpl.
  - reflexivity.
  - unfold mbind, M_bind in *. destruct (body x m) as [[[]| |] m1]; auto.
Qed.

(** A counting loop establishes an invariant indexed by its counter. *)
Lemma for_upto_invariant (Inv : nat -> StateMachine -> Prop) n (body : nat -> M unit) m :
  Inv 0 m ->
  (forall k mk, k < n -> Inv k mk ->
     exists mk', body k mk = (Returned tt, mk') /\ Inv (S k) mk') ->
  exists m', for_upto n body m = (Returned tt, m') /\ Inv n m'.
Proof.
  intros H0 Hstep. unfold for_upto.
  induction n as [|n IH].
  - exists m. split; [reflexivity | assumption].
  - destruct IH as (m1 & Hrun & Hinv); [intros; apply Hstep; auto with lia |].
    destruct (Hstep n m1) as (m2 & Hbody & Hinv2); [lia | assumption |].
    exists m2. split; [| assumption].
    rewrite seq_S, for_each_app. rewrite (bind_returned _ _ _ _ _ Hrun).
    simpl. rewrite (bind_returned _ _ _ _ _ Hbody). reflexivity.
Qed.

(** *** The array *)

Lemma at_bound s i : s < states -> i < inputs -> at_ inputs s i < states * inputs.
Proof. unfold at_. nia. Qed.

Lemma at_inj s i s' i' :
  i < inputs -> i' < inputs -> at_ inputs s i = at_ inputs s' i' -> s = s' /\ i = i'.
Proof. unfold at_. intros Hi Hi' Heq. assert (s = s') by nia. subst. lia. Qed.

Lemma at_ne s i s' i' :
  i < inputs -> i' < inputs -> (s, i) <> (s', i') -> at_ inputs s i <> at_ inputs s' i'.
Proof.
  intros Hi Hi' Hne Heq. destruct (at_inj _ _ _ _ Hi Hi' Heq). congruence.
Qed.

Lemma store_in_bounds idx s m :
  idx < length (_transitions m) ->
  store idx s m =
    (Returned tt, mkStateMachine (delivered m) (<[idx := s]> (_transitions m)) (_current m)).
Proof. intros H. unfold store. by rewrite decide_True. Qed.

Lemma in_bounds_true t :
  in_bounds states inputs t = true <->
  from t < states /\ input t < inputs /\ to t < states.
Proof.
  unfold in_bounds. rewrite !andb_true_iff, !Nat.ltb_lt. tauto.
Qed.

Lemma in_bounds_false t :
  in_bounds states inputs t = false <->
  states <= from t \/ inputs <= input t \/ states <= to t.
Proof.
  rewrite <- not_true_iff_false, in_bounds_true. lia.
Qed.

(** *** The constructor *)

Lemma ctor_row k m :
  k < states -> rows_done states inputs k m ->
  exists m', for_upto inputs (fun j => store (at_ inputs k j) k) m = (Returned tt, m')
             /\ rows_done states inputs (S k) m'.
Proof.
  intros Hk Hrows.
  destruct (for_upto_invariant
    (fun j mj => rows_done states inputs k mj /\
       forall i, i < j -> cell inputs mj k i = Some k)
    inputs (fun j => store (at_ inputs k j) k) m) as (m' & Hrun & Hdone & Hrow).
  - split; [assumption | intros; lia].
  - intros j mj Hj ((Hd & Hc & Hsz & Hcells) & Hrowj).
    pose proof (at_bound k j Hk Hj) as Hb.
    eexists. split; [apply store_in_bounds; unfold well_sized in Hsz; lia |].
    unfold rows_done, well_sized, cell in *. simpl.
    rewrite length_insert. repeat split; auto.
    + intros s i Hs Hi. rewrite list_lookup_insert_ne; [auto |].
      apply at_ne; auto. intros [=]. lia.
    + intros i Hi. destruct (decide (i = j)) as [->|Hne].
      * apply list_lookup_insert_eq. lia.
      * rewrite list_lookup_insert_ne; [apply Hrowj; lia |].
        apply at_ne; [lia | lia | intros [=]; congruence].
  - exists m'. split; [assumption |].
    destruct Hdone as (Hd & Hc & Hsz & Hcells).
    repeat split; auto.
    intros s i Hs Hi. destruct (decide (s = k)) as [->|Hne].
    + by apply Hrow.
    + apply Hcells; [lia | assumption].
Qed.

Lemma ctor_runs :
  exists m, constructed states inputs = (Returned tt, m) /\ rows_done states inputs states m.
Proof.
  unfold constructed, StateMachine_ctor.
  apply (for_upto_invariant (rows_done states inputs)).
  - unfold rows_done, well_sized, cell. simpl. rewrite length_replicate.
    repeat split. intros; lia.
  - intros k mk Hk Hinv. by apply ctor_row.
Qed.

(** *** Writing transitions into the array *)

Lemma length_write_all ts tbl : length (write_all inputs ts tbl) = length tbl.
Proof.
  revert tbl. induction ts as [|t ts IH]; intros tbl; simpl; [done |].
  unfold write_all in *. simpl. rewrite IH. apply length_insert.
Qed.

Lemma write_all_app ts1 ts2 tbl :
  write_all inputs (ts1 ++ ts2) tbl = write_all inputs ts2 (write_all inputs ts1 tbl).
Proof. unfold write_all. apply foldl_app. Qed.

Lemma write_all_cons t ts tbl :
  write_all inputs (t :: ts) tbl =
  write_all inputs ts (<[at_ inputs (from t) (input t) := to t]> tbl).
Proof. reflexivity. Qed.

Lemma write_all_lookup_other ts tbl idx :
  Forall (fun t => at_ inputs (from t) (input t) <> idx) ts ->
  write_all inputs ts tbl !! idx = tbl !! idx.
Proof.
  revert tbl. induction ts as [|t ts IH]; intros tbl Hall; [done |].
  inversion_clear Hall as [|? ? Ht Hts].
  rewrite write_all_cons, IH by assumption.
  by apply list_lookup_insert_ne.
Qed.

Lemma write_all_cells ts tbl :
  Forall (fun t => in_bounds states inputs t = true) ts ->
  Forall (fun s => s < states) tbl ->
  Forall (fun s => s < states) (write_all inputs ts tbl).
Proof.
  revert tbl. induction ts as [|t ts IH]; intros tbl Hall Htbl; [done |].
  inversion_clear Hall as [|? ? Ht Hts].
  rewrite write_all_cons. apply IH; [assumption |].
  apply in_bounds_true in Ht as (_ & _ & Hto).
  destruct (decide (at_ inputs (from t) (input t) < length tbl)).
  - by apply Forall_insert.
  - rewrite list_insert_ge by lia. assumption.
Qed.

(** Two writes to different cells commute. *)
Lemma write_swap t1 t2 tbl :
  in_bounds states inputs t1 = true -> in_bounds states inputs t2 = true ->
  key t1 <> key t2 ->
  write_all inputs [t1; t2] tbl = write_all inputs [t2; t1] tbl.
Proof.
  intros H1 H2 Hne. unfold write_all. simpl.
  apply in_bounds_true in H1 as (_ & Hi1 & _).
  apply in_bounds_true in H2 as (_ & Hi2 & _).
  apply list_insert_insert_ne, at_ne; [assumption | assumption |].
  unfold key in Hne. congruence.
Qed.

Lemma write_all_permutation ts ts' tbl :
  Forall (fun t => in_bounds states inputs t = true) ts ->
  NoDup (key <$> ts) ->
  ts ≡ₚ ts' ->
  write_all inputs ts tbl = write_all inputs ts' tbl.
Proof.
  intros Hall Hnd Hperm. revert tbl Hall Hnd.
  induction Hperm as [|t l l' Hp IH|t1 t2 l|l l' l'' Hp1 IH1 Hp2 IH2];
    intros tbl Hall Hnd.
  - reflexivity.
  - rewrite !write_all_cons. rewrite fmap_cons in Hnd.
    apply NoDup_cons in Hnd as [_ Hnd]. apply Forall_cons in Hall as [_ Hall].
    by apply IH.
  - change (t1 :: t2 :: l) with ([t1; t2] ++ l).
    change (t2 :: t1 :: l) with ([t2; t1] ++ l).
    rewrite !write_all_app. f_equal.
    apply Forall_cons in Hall as [H1 Hall]. apply Forall_cons in Hall as [H2 _].
    rewrite !fmap_cons in Hnd. apply NoDup_cons in Hnd as [Hnot _].
    symmetry. apply write_swap; try assumption.
    intros Heq. apply Hnot. rewrite Heq. left.
  - rewrite IH1 by assumption. apply IH2.
    + by rewrite <- Hp1.
    + by rewrite <- Hp1.
Qed.

(** *** The transitions a call accepts *)

Lemma accepted_in_bounds ts :
  Forall (fun t => in_bounds states inputs t = true) (accepted states inputs ts).
Proof.
  induction ts as [|t ts IH]; simpl; [constructor |].
  destruct (in_bounds states inputs t) eqn:Ht; [| constructor].
  by constructor.
Qed.

Lemma accepted_app pre rest :
  Forall (fun t => in_bounds states inputs t = true) pre ->
  accepted states inputs (pre ++ rest) = pre ++ accepted states inputs rest /\
  first_rejected states inputs (pre ++ rest) = first_rejected states inputs rest.
Proof.
  induction 1 as [|t pre Ht Hpre [IHa IHr]]; simpl; [done |].
  rewrite Ht, IHa, IHr. done.
Qed.

Lemma accepted_all ts :
  Forall (fun t => in_bounds states inputs t = true) ts ->
  accepted states inputs ts = ts /\ first_rejected states inputs ts = None.
Proof.
  intros Hall. destruct (accepted_app ts [] Hall) as [Ha Hr].
  simpl in Ha, Hr. rewrite !app_nil_r in Ha. rewrite app_nil_r in Hr. done.
Qed.

Lemma accepted_until pre bad post :
  Forall (fun t => in_bounds states inputs t = true) pre ->
  in_bounds states inputs bad = false ->
  accepted states inputs (pre ++ bad :: post) = pre /\
  first_rejected states inputs (pre ++ bad :: post) = Some bad.
Proof.
  intros Hpre Hbad. destruct (accepted_app pre (bad :: post) Hpre) as [Ha Hr].
  rewrite Ha, Hr. simpl. rewrite Hbad, app_nil_r. done.
Qed.

Lemma accepted_elem_of t ts : t ∈ accepted states inputs ts -> t ∈ ts.
Proof.
  induction ts as [|t' ts IH]; simpl; [done |].
  destruct (in_bounds states inputs t'); [| by intros ?%elem_of_nil].
  intros [->|H]%elem_of_cons; [left | right; auto].
Qed.

(** A list with an out-of-bounds transition splits at the first one. *)
Lemma first_out_of_bounds ts :
  Exists (fun t => in_bounds states inputs t = false) ts ->
  exists pre bad post,
    ts = pre ++ bad :: post /\
    Forall (fun t => in_bounds states inputs t = true) pre /\
    in_bounds states inputs bad = false.
Proof.
  induction ts as [|t ts IH]; intros Hex; [by apply Exists_nil in Hex |].
  destruct (in_bounds states inputs t) eqn:Ht.
  - apply Exists_cons in Hex as [Hex|Hex]; [congruence |].
    destruct (IH Hex) as (pre & bad & post & -> & Hpre & Hbad).
    exists (t :: pre), bad, post. repeat split; [by constructor | assumption].
  - exists [], t, ts. repeat split; [constructor | assumption].
Qed.

(** *** addTransitions *)

(** The call ends at the first transition that fails the assertion, or
    returns when there is none; the accepted ones have been written. *)
Lemma addTransitions_run ts m :
  well_sized states inputs m ->
  addTransitions states inputs ts m =
    (match first_rejected states inputs ts with
     | None => Returned tt
     | Some bad => AssertFailed (OutOfBoundsState (from bad) (input bad) (to bad))
     end,
     mkStateMachine (delivered m)
       (write_all inputs (accepted states inputs ts) (_transitions m))
       (_current m)).
Proof.
  revert m. induction ts as [|t ts IH]; intros m Hsz.
  - destruct m; reflexivity.
  - unfold addTransitions in *. simpl.
    destruct (in_bounds states inputs t) eqn:Ht.
    + apply in_bounds_true in Ht as (Hf & Hi & Hto).
      pose proof (at_bound _ _ Hf Hi) as Hb.
      unfold mbind at 1, M_bind. unfold mbind at 1, M_bind. simpl.
      rewrite store_in_bounds by (unfold well_sized in Hsz; lia).
      rewrite IH; [reflexivity |].
      unfold well_sized in *. simpl. by rewrite length_insert.
    + unfold mbind at 1, M_bind. unfold mbind at 1, M_bind. simpl.
      destruct m; reflexivity.
Qed.

(** A transition that no later accepted one overwrites decides its cell. *)
Lemma write_all_last pre t post tbl :
  length tbl = states * inputs ->
  in_bounds states inputs t = true ->
  Forall (fun t' => in_bounds states inputs t' = true) post ->
  key t ∉ key <$> post ->
  write_all inputs (pre ++ t :: post) tbl !! at_ inputs (from t) (input t) = Some (to t).
Proof.
  intros Hlen Ht Hpost Hfresh.
  apply in_bounds_true in Ht as (Hf & Hi & _).
  rewrite write_all_app, write_all_cons, write_all_lookup_other.
  - apply list_lookup_insert_eq. rewrite length_write_all, Hlen. by apply at_bound.
  - apply Forall_forall. intros t' Hin.
    rewrite Forall_forall in Hpost.
    destruct (proj1 (in_bounds_true t') (Hpost _ Hin)) as (_ & Hi' & _).
    apply at_ne; [assumption | assumption |].
    intros Heq. apply Hfresh. apply list_elem_of_fmap. exists t'.
    split; [unfold key; congruence | assumption].
Qed.

(** Cells that no transition of the list names keep their content. *)
Lemma write_all_frame ts tbl s i :
  Forall (fun t => in_bounds states inputs t = true) ts ->
  i < inputs ->
  (s, i) ∉ key <$> ts ->
  write_all inputs ts tbl !! at_ inputs s i = tbl !! at_ inputs s i.
Proof.
  intros Hall Hi Hfresh. apply write_all_lookup_other.
  apply Forall_forall. intros t Hin. rewrite Forall_forall in Hall.
  destruct (proj1 (in_bounds_true t) (Hall _ Hin)) as (_ & Hi' & _).
  apply at_ne; [assumption | assumption |].
  intros Heq. apply Hfresh. apply list_elem_of_fmap. by exists t.
Qed.

(** *** Signal dispatch *)

Lemma enteredInternal_found wanted k m :
  wanted < k -> enteredInternal wanted k m = emit (entered wanted) m.
Proof.
  induction k as [|k IH]; intros Hlt; [lia |]. simpl.
  destruct (decide (k = wanted)) as [->|Hne]; [reflexivity |].
  apply IH. lia.
Qed.

Lemma exitedInternal_found wanted k m :
  wanted < k -> exitedInternal wanted k m = emit (exited wanted) m.
Proof.
  induction k as [|k IH]; intros Hlt; [lia |]. simpl.
  destruct (decide (k = wanted)) as [->|Hne]; [reflexivity |].
  apply IH. lia.
Qed.

Lemma enteredInternal_missed wanted k m :
  k <= wanted -> enteredInternal wanted k m = (AssertFailed Unreachable, m).
Proof.
  induction k as [|k IH]; intros Hle; [reflexivity |]. simpl.
  rewrite decide_False by lia. apply IH. lia.
Qed.

Lemma exitedInternal_missed wanted k m :
  k <= wanted -> exitedInternal wanted k m = (AssertFailed Unreachable, m).
Proof.
  induction k as [|k IH]; intros Hle; [reflexivity |]. simpl.
  rewrite decide_False by lia. apply IH. lia.
Qed.

(** *** step *)

Lemma step_same inp m :
  cell inputs m (_current m) inp = Some (_current m) ->
  step states inputs inp m = (Returned tt, m).
Proof.
  intros Hcell. unfold step, cell in *.
  unfold mbind, M_bind, get_current, load. simpl. rewrite Hcell.
  by rewrite decide_False by (intros H; by apply H).
Qed.

Lemma step_other inp next m :
  _current m < states -> next < states ->
  cell inputs m (_current m) inp = Some next ->
  next <> _current m ->
  step states inputs inp m =
    (Returned tt,
     mkStateMachine
       (delivered m ++ [mkEmission (exited (_current m)) (_current m);
                        mkEmission (entered next) next])
       (_transitions m) next).
Proof.
  intros Hcur Hnext Hcell Hne. unfold step, cell in *.
  unfold mbind at 1, M_bind, get_current. simpl.
  unfold mbind at 1, M_bind, load. rewrite Hcell.
  rewrite decide_True by assumption.
  unfold mbind at 1, M_bind. rewrite exitedInternal_found by assumption.
  unfold emit at 1. simpl.
  unfold mbind, M_bind, set_current. simpl.
  rewrite enteredInternal_found by assumption.
  unfold emit. simpl. by rewrite <- app_assoc.
Qed.

(** *** The invariant *)

Lemma invariant_cell m s i :
  table_invariant states inputs m -> s < states -> i < inputs ->
  exists next, cell inputs m s i = Some next /\ next < states.
Proof.
  intros [Hsz Hcells _] Hs Hi. unfold cell.
  destruct (lookup_lt_is_Some_2 (_transitions m) (at_ inputs s i)) as [next Hnext].
  - rewrite Hsz. by apply at_bound.
  - exists next. split; [assumption |].
    rewrite Forall_lookup in Hcells. by apply (Hcells _ _ Hnext).
Qed.

Lemma constructed_invariant :
  0 < states ->
  exists m, constructed states inputs = (Returned tt, m) /\ table_invariant states inputs m.
Proof.
  intros Hpos. destruct ctor_runs as (m & Hrun & Hd & Hc & Hsz & Hcells).
  exists m. split; [assumption |]. split; [assumption | | lia].
  apply Forall_lookup. intros idx x Hx.
  pose proof (lookup_lt_Some _ _ _ Hx) as Hlt. rewrite Hsz in Hlt.
  assert (0 < inputs) as Hin by nia.
  assert (idx / inputs < states) as Hrow by (apply Nat.Div0.div_lt_upper_bound; lia).
  assert (idx mod inputs < inputs) as Hcol by (apply Nat.mod_upper_bound; lia).
  specialize (Hcells _ _ Hrow Hcol). unfold cell, at_ in Hcells.
  replace (idx / inputs * inputs + idx mod inputs) with idx in Hcells
    by (rewrite (Nat.div_mod_eq idx inputs) at 1; lia).
  congruence.
Qed.

Lemma addTransitions_invariant ts m :
  table_invariant states inputs m ->
  Forall (fun t => in_bounds states inputs t = true) ts ->
  exists m', addTransitions states inputs ts m = (Returned tt, m') /\
             table_invariant states inputs m'.
Proof.
  intros [Hsz Hcells Hcur] Hall.
  destruct (accepted_all ts Hall) as [Ha Hr].
  eexists. split.
  - rewrite addTransitions_run by assumption. rewrite Hr, Ha. reflexivity.
  - split; simpl; [| by apply write_all_cells | assumption].
    unfold well_sized in *. simpl. by rewrite length_write_all.
Qed.

Lemma step_invariant inp m :
  table_invariant states inputs m -> inp < inputs ->
  exists m', step states inputs inp m = (Returned tt, m') /\
             table_invariant states inputs m'.
Proof.
  intros Hinv Hinp.
  destruct (invariant_cell m (_current m) inp Hinv) as (next & Hcell & Hnext);
    [apply Hinv | assumption |].
  destruct (decide (next = _current m)) as [Heq|Hne].
  - exists m. split; [| assumption]. apply step_same. by rewrite <- Heq at 2.
  - eexists. split; [apply (step_other inp next); auto; apply Hinv |].
    destruct Hinv as [Hsz Hcells Hcur]. by split.
Qed.

Lemma perform_invariant op m :
  table_invariant states inputs m -> in_range states inputs op ->
  exists m', perform states inputs op m = (Returned tt, m') /\
             table_invariant states inputs m'.
Proof.
  destruct op as [ts|inp]; simpl; intros Hinv Hop.
  - by apply addTransitions_invariant.
  - by apply step_invariant.
Qed.

Lemma operations_invariant ops m :
  table_invariant states inputs m -> Forall (in_range states inputs) ops ->
  exists m', for_each ops (perform states inputs) m = (Returned tt, m') /\
             table_invariant states inputs m'.
Proof.
  revert m. induction ops as [|op ops IH]; intros m Hinv Hall.
  - by exists m.
  - apply Forall_cons in Hall as [Hop Hall].
    destruct (perform_invariant op m Hinv Hop) as (m1 & Hrun1 & Hinv1).
    destruct (IH m1 Hinv1 Hall) as (m2 & Hrun2 & Hinv2).
    exists m2. split; [| assumption].
    simpl. by rewrite (bind_returned _ _ _ _ _ Hrun1).
Qed.

(** ** The specified properties *)

(** C1. In a machine that satisfies the table invariant, when the cell for
    the current state and an in-range input holds a state [next] other than
    the current one, [step] returns having emitted exactly two signals, in
    this order: [exited] of the old current state, emitted while
    [current()] is still the old state, then [entered] of [next], emitted
    when [current()] already is [next].  Nothing else is emitted, the table
    is untouched and the current state ends as [next]. *)
Theorem step_exits_then_enters m inp next :
  table_invariant states inputs m ->
  inp < inputs ->
  cell inputs m (current m) inp = Some next ->
  next <> current m ->
  step states inputs inp m =
    (Returned tt,
     mkStateMachine
       (delivered m ++ [mkEmission (exited (current m)) (current m);
                        mkEmission (entered next) next])
       (_transitions m) next).
Proof.
  intros Hinv Hinp Hcell Hne. unfold current in *.
  destruct (invariant_cell m (_current m) inp Hinv) as (next' & Hcell' & Hnext);
    [apply Hinv | assumption |].
  assert (next' = next) as -> by congruence.
  apply step_other; auto. apply Hinv.
Qed.

(** C2. For an in-range input whose cell equals the current state, [step]
    returns the machine as it was: same current state, no signal emitted;
    it does not matter how the cell came to hold that value.  In
    particular the constructor of a machine with at least one state returns
    a machine on which [step] of any in-range input does nothing. *)
Theorem step_self_loop_is_silent inp :
  inp < inputs ->
  (forall m, cell inputs m (current m) inp = Some (current m) ->
             step states inputs inp m = (Returned tt, m)) /\
  (0 < states ->
   exists m0, constructed states inputs = (Returned tt, m0) /\
              delivered m0 = [] /\
              step states inputs inp m0 = (Returned tt, m0)).
Proof.
  intros Hinp. split.
  - intros m Hcell. by apply step_same.
  - intros Hpos. destruct ctor_runs as (m0 & Hrun & Hd & Hc & Hsz & Hcells).
    exists m0. repeat split; [assumption | assumption |].
    apply step_same. rewrite Hc. by apply Hcells.
Qed.

(** C3. The constructor returns, and in the machine it leaves every cell
    [(s, i)] with [s < states] and [i < inputs] holds [s], the current state
    is ordinal 0, the array has [states * inputs] elements and no signal
    has been emitted. *)
Theorem constructor_identity_table :
  exists m, constructed states inputs = (Returned tt, m) /\
            current m = 0 /\
            delivered m = [] /\
            length (_transitions m) = states * inputs /\
            forall s i, s < states -> i < inputs -> cell inputs m s i = Some s.
Proof.
  destruct ctor_runs as (m & Hrun & Hd & Hc & Hsz & Hcells).
  exists m. repeat split; assumption.
Qed.

(** C4. Take a machine with at least one state (the array bound
    [states*inputs] of the class has to be positive), construct it and
    perform any list of operations in which every [addTransitions] call
    supplies only in-bounds transitions and every [step] an in-range input.
    After every operation of the list (after the first [n], for every [n])
    all calls have returned and the table invariant holds: the array has
    its extent, every cell holds a state below [states], and so does the
    current state. *)
Theorem table_invariant_always ops n :
  0 < states ->
  Forall (in_range states inputs) ops ->
  exists m, lifetime states inputs (take n ops) = (Returned tt, m) /\
            table_invariant states inputs m.
Proof.
  intros Hpos Hops.
  destruct (constructed_invariant Hpos) as (m0 & Hrun0 & Hinv0).
  destruct (operations_invariant (take n ops) m0 Hinv0) as (m & Hrun & Hinv);
    [by apply Forall_take |].
  exists m. split; [| assumption].
  unfold lifetime. unfold constructed in Hrun0.
  by rewrite (bind_returned _ _ _ _ _ Hrun0).
Qed.

(** C5. Started at [states], the search of either direction for a wanted
    state below [states] returns having emitted exactly one signal, the one
    of the wanted state; it does not reach the unreachable overload for
    count 0.  (The search goes through the candidates [states-1] down to
    [0]: that is the recursion of [enteredInternal] and [exitedInternal].) *)
Theorem dispatch_emits_wanted wanted m :
  wanted < states ->
  enteredInternal wanted states m =
    (Returned tt,
     mkStateMachine (delivered m ++ [mkEmission (entered wanted) (current m)])
                    (_transitions m) (current m)) /\
  exitedInternal wanted states m =
    (Returned tt,
     mkStateMachine (delivered m ++ [mkEmission (exited wanted) (current m)])
                    (_transitions m) (current m)).
Proof.
  intros Hlt. split.
  - by rewrite enteredInternal_found.
  - by rewrite exitedInternal_found.
Qed.

(** C6. A call of [addTransitions] whose list contains an out-of-bounds
    transition does not return normally: it ends in the failed assertion
    that reports the first such transition.  The transitions before that
    one remain applied: each of them that no later one among them
    overwrites decides its cell in the table the call leaves. *)
Theorem addTransitions_out_of_bounds_asserts ts m :
  well_sized states inputs m ->
  Exists (fun t => states <= from t \/ inputs <= input t \/ states <= to t) ts ->
  exists pre bad post,
    ts = pre ++ bad :: post /\
    Forall (fun t => in_bounds states inputs t = true) pre /\
    (states <= from bad \/ inputs <= input bad \/ states <= to bad) /\
    (addTransitions states inputs ts m).1 =
      AssertFailed (OutOfBoundsState (from bad) (input bad) (to bad)) /\
    forall l1 t l2,
      pre = l1 ++ t :: l2 -> key t ∉ key <$> l2 ->
      cell inputs (addTransitions states inputs ts m).2 (from t) (input t) = Some (to t).
Proof.
  intros Hsz Hex.
  destruct (first_out_of_bounds ts) as (pre & bad & post & -> & Hpre & Hbad).
  { eapply Exists_impl; [exact Hex |]. intros t. apply in_bounds_false. }
  exists pre, bad, post.
  split; [reflexivity |]. split; [assumption |].
  split; [by apply in_bounds_false |]. split.
  - rewrite addTransitions_run by assumption.
    destruct (accepted_until pre bad post Hpre Hbad) as [_ ->]. reflexivity.
  - intros l1 t l2 -> Hfresh.
    rewrite addTransitions_run by assumption.
    destruct (accepted_until _ bad post Hpre Hbad) as [-> _].
    unfold cell. simpl.
    apply Forall_app in Hpre as [_ Hpre]. apply Forall_cons in Hpre as [Ht Hl2].
    by apply write_all_last.
Qed.

(** C7. When a call supplies a transition [a] and later a transition [b]
    for the same cell with a different target, everything up to [b] is in
    bounds and nothing after [b] names that cell again, the cell holds the
    target of [b], the later one, after the call. *)
Theorem addTransitions_last_write_wins l1 a l2 b l3 m :
  well_sized states inputs m ->
  Forall (fun t => in_bounds states inputs t = true) (l1 ++ a :: l2 ++ [b]) ->
  key a = key b ->
  to a <> to b ->
  key b ∉ key <$> l3 ->
  cell inputs (addTransitions states inputs (l1 ++ a :: l2 ++ b :: l3) m).2
       (from b) (input b) = Some (to b).
Proof.
  intros Hsz Hall _ _ Hfresh.
  rewrite addTransitions_run by assumption. unfold cell. simpl.
  replace (l1 ++ a :: l2 ++ b :: l3) with ((l1 ++ a :: l2 ++ [b]) ++ l3)
    by (by rewrite <- !app_assoc; simpl; rewrite <- app_assoc).
  destruct (accepted_app _ l3 Hall) as [-> _].
  replace ((l1 ++ a :: l2 ++ [b]) ++ accepted states inputs l3)
    with ((l1 ++ a :: l2) ++ b :: accepted states inputs l3)
    by (by rewrite <- !app_assoc; simpl; rewrite <- app_assoc).
  apply write_all_last.
  - assumption.
  - rewrite Forall_forall in Hall. apply Hall.
    rewrite !elem_of_app, !elem_of_cons, elem_of_app, list_elem_of_singleton. tauto.
  - apply accepted_in_bounds.
  - intros (t & Hk & Hin%accepted_elem_of)%list_elem_of_fmap.
    apply Hfresh. apply list_elem_of_fmap. by exists t.
Qed.

(** C8. For in-bounds transitions no two of which name the same cell, a
    call with the list and a call with any permutation of it both return
    and leave the same machine, so the same table. *)
Theorem addTransitions_order_independent ts ts' m :
  well_sized states inputs m ->
  Forall (fun t => in_bounds states inputs t = true) ts ->
  NoDup (key <$> ts) ->
  ts ≡ₚ ts' ->
  (addTransitions states inputs ts m).1 = Returned tt /\
  addTransitions states inputs ts' m = addTransitions states inputs ts m.
Proof.
  intros Hsz Hall Hnd Hperm.
  assert (Forall (fun t => in_bounds states inputs t = true) ts') as Hall'
    by (by rewrite <- Hperm).
  rewrite !addTransitions_run by assumption.
  destruct (accepted_all ts Hall) as [-> ->].
  destruct (accepted_all ts' Hall') as [-> ->].
  split; [reflexivity |]. simpl.
  by rewrite (write_all_permutation ts ts').
Qed.

(** C9. A call of [addTransitions] with in-bounds transitions only returns
    and leaves the current state as it was, emits nothing, and leaves every
    cell of the table that none of the supplied transitions names with the
    content it had. *)
Theorem addTransitions_frame ts m :
  well_sized states inputs m ->
  Forall (fun t => in_bounds states inputs t = true) ts ->
  exists m', addTransitions states inputs ts m = (Returned tt, m') /\
             current m' = current m /\
             delivered m' = delivered m /\
             forall s i, s < states -> i < inputs -> (s, i) ∉ key <$> ts ->
                         cell inputs m' s i = cell inputs m s i.
Proof.
  intros Hsz Hall. destruct (accepted_all ts Hall) as [Ha Hr].
  eexists. split; [| split; [| split]].
  - rewrite addTransitions_run by assumption. rewrite Hr, Ha. reflexivity.
  - reflexivity.
  - reflexivity.
  - intros s i Hs Hi Hfresh. unfold cell. simpl. by apply write_all_frame.
Qed.

(** C10. When the first out-of-bounds transition of a call is [bad], after
    the in-bounds transitions [pre] and before [post], the call ends in the
    failed assertion for [bad] and leaves exactly the machine that the call
    with [pre] alone returns with: [bad] is not written and neither is any
    transition of [post], in bounds or not.  So a cell that no transition
    of [pre] names has the content it had before the call. *)
Theorem addTransitions_stops_at_first_rejected pre bad post m :
  well_sized states inputs m ->
  Forall (fun t => in_bounds states inputs t = true) pre ->
  in_bounds states inputs bad = false ->
  addTransitions states inputs pre m =
    (Returned tt,
     mkStateMachine (delivered m) (write_all inputs pre (_transitions m)) (_current m)) /\
  addTransitions states inputs (pre ++ bad :: post) m =
    (AssertFailed (OutOfBoundsState (from bad) (input bad) (to bad)),
     (addTransitions states inputs pre m).2) /\
  forall s i, i < inputs -> (s, i) ∉ key <$> pre ->
    cell inputs (addTransitions states inputs (pre ++ bad :: post) m).2 s i =
    cell inputs m s i.
Proof.
  intros Hsz Hpre Hbad.
  destruct (accepted_all pre Hpre) as [Ha Hr].
  destruct (accepted_until pre bad post Hpre Hbad) as [Ha' Hr'].
  rewrite !addTransitions_run by assumption.
  rewrite Ha, Hr, Ha', Hr'. repeat split.
  intros s i Hi Hfresh. unfold cell. simpl. by apply write_all_frame.
Qed.

(** ** Further properties of the class *)

(** *** Helpers *)

Lemma at_row_major s inp :
  0 < inputs ->
  at_ inputs s inp = at_ inputs (s + inp / inputs) (inp mod inputs).
Proof.
  intros Hpos. unfold at_.
  pose proof (Nat.div_mod_eq inp inputs) as Heq. nia.
Qed.

Lemma at_onto idx :
  idx < states * inputs ->
  idx / inputs < states /\ idx mod inputs < inputs /\
  at_ inputs (idx / inputs) (idx mod inputs) = idx.
Proof.
  intros Hlt. assert (0 < inputs) as Hpos by nia.
  split; [apply Nat.Div0.div_lt_upper_bound; lia |].
  split; [apply Nat.mod_upper_bound; lia |].
  unfold at_. pose proof (Nat.div_mod_eq idx inputs). lia.
Qed.


Lemma last_target_elem_of ts s i target :
  last_target ts s i = Some target ->
  exists t, t ∈ ts /\ key t = (s, i) /\ to t = target.
Proof.
  induction ts as [|t ts IH]; simpl; [done |].
  destruct (last_target ts s i) as [v|].
  - intros [= ->]. destruct IH as (t' & Hin & Hk & Ht); [done |].
    exists t'. split; [by right | done].
  - destruct (decide (key t = (s, i))) as [Hk|]; [| done].
    intros [= <-]. exists t. split; [left | done].
Qed.

Lemma last_target_unnamed ts s i :
  (s, i) ∉ key <$> ts -> last_target ts s i = None.
Proof.
  intros Hfresh. destruct (last_target ts s i) as [v|] eqn:Hv; [| done].
  destruct (last_target_elem_of _ _ _ _ Hv) as (t & Hin & Hk & _).
  exfalso. apply Hfresh. apply list_elem_of_fmap. by exists t.
Qed.

(** What a reader finds in a cell after the writes of a list. *)
Lemma write_all_lookup ts tbl s i :
  length tbl = states * inputs ->
  Forall (fun t => in_bounds states inputs t = true) ts ->
  s < states -> i < inputs ->
  write_all inputs ts tbl !! at_ inputs s i =
    match last_target ts s i with
    | Some target => Some target
    | None => tbl !! at_ inputs s i
    end.
Proof.
  intros Hlen Hall Hs Hi. revert tbl Hlen.
  induction Hall as [|t ts Ht Hts IH]; intros tbl Hlen; [done |].
  rewrite write_all_cons, IH by (by rewrite length_insert). simpl.
  destruct (last_target ts s i) as [v|]; [done |].
  apply in_bounds_true in Ht as (Hf & Hti & _).
  destruct (decide (key t = (s, i))) as [Hk|Hk].
  - injection Hk as <- <-. apply list_lookup_insert_eq.
    rewrite Hlen. by apply at_bound.
  - apply list_lookup_insert_ne, at_ne; assumption.
Qed.

Lemma write_all_twice ts tbl :
  length tbl = states * inputs ->
  Forall (fun t => in_bounds states inputs t = true) ts ->
  write_all inputs ts (write_all inputs ts tbl) = write_all inputs ts tbl.
Proof.
  intros Hlen Hall. apply list_eq. intros idx.
  destruct (decide (idx < states * inputs)) as [Hlt|Hge].
  - destruct (at_onto idx Hlt) as (Hs & Hi & <-).
    rewrite !write_all_lookup; try assumption; [| by rewrite length_write_all].
    by destruct (last_target ts _ _).
  - rewrite !(proj2 (lookup_ge_None _ _)); [done | |];
      rewrite !length_write_all; lia.
Qed.

Lemma first_rejected_none ts :
  first_rejected states inputs ts = None ->
  Forall (fun t => in_bounds states inputs t = true) ts.
Proof.
  induction ts as [|t ts IH]; simpl; [constructor |].
  destruct (in_bounds states inputs t) eqn:Ht; [| done].
  intros Hr. constructor; auto.
Qed.

Lemma list_pair_ind {A} (P : list A -> Prop) :
  P [] -> (forall x, P [x]) -> (forall x y l, P l -> P (x :: y :: l)) ->
  forall l, P l.
Proof.
  intros Hnil Hone Hstep l.
  assert (P l /\ forall x, P (x :: l)) as [H _]; [| exact H].
  induction l as [|y l [IH1 IH2]]; [by split |].
  split; [apply IH2 | intros x; by apply Hstep].
Qed.

Lemma walk_app log l2 start mid :
  walk start log = Some mid -> walk start (log ++ l2) = walk mid l2.
Proof.
  revert start. induction log as [|e|e1 e2 log IH] using list_pair_ind;
    intros start Hwalk.
  - by injection Hwalk as ->.
  - discriminate Hwalk.
  - simpl in *. destruct (signal e2) as [next|]; [| done].
    destruct (decide _); [by apply IH | done].
Qed.

Lemma walk_pair cur next :
  next <> cur ->
  walk cur [mkEmission (exited cur) cur; mkEmission (entered next) next] = Some next.
Proof. intros Hne. simpl. by rewrite decide_True. Qed.

(** What [step] does with an in-range input under the invariant. *)
Lemma step_in_range inp m :
  table_invariant states inputs m -> inp < inputs ->
  exists next,
    cell inputs m (_current m) inp = Some next /\ next < states /\
    step states inputs inp m =
      (Returned tt,
       if decide (next = _current m) then m
       else mkStateMachine
              (delivered m ++ [mkEmission (exited (_current m)) (_current m);
                               mkEmission (entered next) next])
              (_transitions m) next).
Proof.
  intros Hinv Hinp.
  destruct (invariant_cell m (_current m) inp Hinv) as (next & Hcell & Hnext);
    [apply Hinv | assumption |].
  exists next. split; [assumption |]. split; [assumption |].
  destruct (decide (next = _current m)) as [Heq|Hne].
  - apply step_same. by rewrite Hcell, Heq.
  - apply step_other; auto. apply Hinv.
Qed.

(** An invariant that the constructor establishes and every in-range
    operation of a list keeps holds at the end of the lifetime. *)
Lemma lifetime_invariant (Inv : StateMachine -> Prop) ops :
  0 < states ->
  Forall (in_range states inputs) ops ->
  (forall m, rows_done states inputs states m -> Inv m) ->
  (forall op m m', op ∈ ops -> in_range states inputs op ->
     table_invariant states inputs m -> Inv m ->
     perform states inputs op m = (Returned tt, m') -> Inv m') ->
  exists m, lifetime states inputs ops = (Returned tt, m) /\
            table_invariant states inputs m /\ Inv m.
Proof.
  intros Hpos Hops Hinit Hkeep.
  destruct ctor_runs as (m0 & Hrun0 & Hrows).
  destruct (constructed_invariant Hpos) as (m0' & Hrun0' & Hinv0).
  assert (m0' = m0) as -> by congruence.
  assert (forall l m, (forall op, op ∈ l -> op ∈ ops) ->
            Forall (in_range states inputs) l ->
            table_invariant states inputs m -> Inv m ->
            exists m', for_each l (perform states inputs) m = (Returned tt, m') /\
                       table_invariant states inputs m' /\ Inv m') as Hloop.
  { induction l as [|op l IH]; intros m Hsub Hall Htab HI.
    - by exists m.
    - apply Forall_cons in Hall as [Hop Hall].
      destruct (perform_invariant op m Htab Hop) as (m1 & Hrun1 & Htab1).
      destruct (IH m1) as (m2 & Hrun2 & Htab2 & HI2); try assumption.
      + intros op' Hin. apply Hsub. by right.
      + apply (Hkeep op m m1); try assumption. apply Hsub. left.
      + exists m2. split; [| by split].
        simpl. by rewrite (bind_returned _ _ _ _ _ Hrun1). }
  destruct (Hloop ops m0) as (m & Hrun & Htab & HI); auto.
  exists m. split; [| by split].
  unfold lifetime. unfold constructed in Hrun0.
  by rewrite (bind_returned _ _ _ _ _ Hrun0).
Qed.

Lemma named_elem_of ops ts k :
  AddTransitions ts ∈ ops -> k ∈ key <$> ts -> k ∈ named ops.
Proof.
  intros Hop Hk. unfold named. apply list_elem_of_In, in_flat_map.
  exists (AddTransitions ts). split; by apply list_elem_of_In.
Qed.

Lemma targets_elem_of ops ts target :
  AddTransitions ts ∈ ops -> target ∈ to <$> ts -> target ∈ targets ops.
Proof.
  intros Hop Hk. unfold targets. apply list_elem_of_In, in_flat_map.
  exists (AddTransitions ts). split; by apply list_elem_of_In.
Qed.

(** The machine an [addTransitions] call that returned has left. *)
Lemma addTransitions_returned ts m m' :
  well_sized states inputs m ->
  Forall (fun t => in_bounds states inputs t = true) ts ->
  addTransitions states inputs ts m = (Returned tt, m') ->
  m' = mkStateMachine (delivered m) (write_all inputs ts (_transitions m)) (_current m).
Proof.
  intros Hsz Hall Hrun. rewrite addTransitions_run in Hrun by assumption.
  destruct (accepted_all ts Hall) as [Ha _]. rewrite Ha in Hrun. congruence.
Qed.

(** *** The extras *)

(** X1. [at] lays the table out row by row without gaps or overlaps: an
    in-range pair of state and input gets an index inside the array, two
    different in-range pairs get different indices, and every index of the
    array is the one of an in-range pair. *)
Theorem at_is_a_bijection :
  (forall s i, s < states -> i < inputs -> at_ inputs s i < states * inputs) /\
  (forall s i s' i', i < inputs -> i' < inputs ->
     at_ inputs s i = at_ inputs s' i' -> s = s' /\ i = i') /\
  (forall idx, idx < states * inputs ->
     exists s i, s < states /\ i < inputs /\ at_ inputs s i = idx).
Proof.
  split; [exact at_bound |]. split; [exact at_inj |].
  intros idx Hlt. destruct (at_onto idx Hlt) as (Hs & Hi & Heq). eauto.
Qed.

(** X2. Asked for a state that is not below the count it starts from, the
    search of either direction runs through all candidates and ends in the
    unreachable overload: the assertion fires, no signal is emitted and the
    machine is as it was. *)
Theorem dispatch_out_of_range_is_unreachable wanted m :
  states <= wanted ->
  enteredInternal wanted states m = (AssertFailed Unreachable, m) /\
  exitedInternal wanted states m = (AssertFailed Unreachable, m).
Proof.
  intros Hle. split.
  - by apply enteredInternal_missed.
  - by apply exitedInternal_missed.
Qed.

(** X3. Whatever the machine and the input, and however the call ends,
    [step] does not write the transition table; it only appends to what
    has been emitted, and at most two signals. *)
Theorem step_only_appends m inp :
  _transitions (step states inputs inp m).2 = _transitions m /\
  exists new, delivered (step states inputs inp m).2 = delivered m ++ new /\
              length new <= 2.
Proof.
  unfold step, mbind, M_bind, get_current, load. simpl.
  destruct (_transitions m !! at_ inputs (_current m) inp) as [next|];
    [| split; [reflexivity | exists []; rewrite app_nil_r; simpl; split; [done | lia]]].
  destruct (decide (next <> _current m)) as [Hne|Heq];
    [| split; [reflexivity | exists []; rewrite app_nil_r; simpl; split; [done | lia]]].
  destruct (decide (_current m < states)) as [Hcur|Hcur].
  - rewrite exitedInternal_found by assumption. unfold emit at 1, set_current. simpl.
    destruct (decide (next < states)) as [Hnext|Hnext].
    + rewrite enteredInternal_found by assumption. unfold emit. simpl.
      split; [reflexivity |]. eexists. rewrite <- app_assoc. split; [reflexivity |].
      simpl. lia.
    + rewrite enteredInternal_missed by lia. simpl.
      split; [reflexivity |]. eexists. split; [reflexivity |]. simpl. lia.
  - rewrite exitedInternal_missed by lia. simpl.
    split; [reflexivity |]. exists []. rewrite app_nil_r. simpl. split; [done | lia].
Qed.


(** X5. As long as the element [current*inputs + input] lies inside the
    array, [step] returns, also for an input that is not below [inputs]:
    it then takes the transition of the cell in row
    [current + input / inputs] and column [input mod inputs], a cell of
    a later row. *)
Theorem step_unchecked_input_reads_other_row m inp :
  table_invariant states inputs m ->
  at_ inputs (current m) inp < states * inputs ->
  exists next,
    cell inputs m (current m + inp / inputs) (inp mod inputs) = Some next /\
    step states inputs inp m =
      (Returned tt,
       if decide (next = current m) then m
       else mkStateMachine
              (delivered m ++ [mkEmission (exited (current m)) (current m);
                               mkEmission (entered next) next])
              (_transitions m) next).
Proof.
  intros Hinv Hlt. unfold current in *.
  assert (0 < inputs) as Hpos by nia.
  destruct Hinv as [Hsz Hcells Hcur].
  destruct (lookup_lt_is_Some_2 (_transitions m) (at_ inputs (_current m) inp))
    as [next Hnext]; [unfold well_sized in Hsz; lia |].
  assert (next < states) as Hns
    by (rewrite Forall_lookup in Hcells; by apply (Hcells _ _ Hnext)).
  exists next. split.
  - unfold cell. by rewrite <- at_row_major.
  - destruct (decide (next = _current m)) as [Heq|Hne].
    + apply step_same. unfold cell. by rewrite Hnext, Heq.
    + by apply step_other.
Qed.


(** X7. Calling [addTransitions] a second time with the same list changes
    nothing: outcome and machine are those of the single call. *)
Theorem addTransitions_idempotent ts m :
  well_sized states inputs m ->
  (addTransitions states inputs ts;; addTransitions states inputs ts) m =
  addTransitions states inputs ts m.
Proof.
  intros Hsz. pose proof (addTransitions_run ts m Hsz) as Hrun.
  destruct (first_rejected states inputs ts) as [bad|] eqn:Hr.
  - by rewrite (bind_assert_failed _ _ _ _ _ Hrun).
  - rewrite (bind_returned _ _ _ _ _ Hrun), Hrun.
    pose proof (first_rejected_none ts Hr) as Hall.
    destruct (accepted_all ts Hall) as [Ha _].
    rewrite addTransitions_run
      by (unfold well_sized in *; simpl; by rewrite length_write_all).
    rewrite Hr, Ha. simpl. by rewrite write_all_twice.
Qed.

(** X8. After a call of [addTransitions] with in-bounds transitions, an
    in-range cell holds the target of the last supplied transition that
    names it, and what it held before when none does. *)
Theorem addTransitions_cell ts m s i :
  well_sized states inputs m ->
  Forall (fun t => in_bounds states inputs t = true) ts ->
  s < states -> i < inputs ->
  cell inputs (addTransitions states inputs ts m).2 s i =
    match last_target ts s i with
    | Some target => Some target
    | None => cell inputs m s i
    end.
Proof.
  intros Hsz Hall Hs Hi.
  rewrite addTransitions_run by assumption.
  destruct (accepted_all ts Hall) as [-> _].
  unfold cell. simpl. by apply write_all_lookup.
Qed.

(** X9. A configured transition is the one [step] takes.  After a call
    with in-bounds transitions in which [t] is the last to name its cell,
    a machine in state [from t] stepped with [input t] returns in state
    [to t]; it emits [exited (from t)] then [entered (to t)] when the two
    states differ, and nothing when they are the same. *)
Theorem configured_transition_is_taken ts1 t ts2 m :
  table_invariant states inputs m ->
  Forall (fun t' => in_bounds states inputs t' = true) (ts1 ++ t :: ts2) ->
  key t ∉ key <$> ts2 ->
  current m = from t ->
  exists m',
    (addTransitions states inputs (ts1 ++ t :: ts2);; step states inputs (input t)) m
      = (Returned tt, m') /\
    current m' = to t /\
    delivered m' =
      delivered m ++
      (if decide (to t = from t) then []
       else [mkEmission (exited (from t)) (from t);
             mkEmission (entered (to t)) (to t)]).
Proof.
  intros [Hsz Hcells Hcur] Hall Hfresh Hfrom. unfold current in *.
  pose proof (addTransitions_run (ts1 ++ t :: ts2) m Hsz) as Hrun.
  destruct (accepted_all _ Hall) as [Ha Hr]. rewrite Ha, Hr in Hrun.
  rewrite (bind_returned _ _ _ _ _ Hrun).
  pose proof Hall as Hall'.
  apply Forall_app in Hall' as [_ Hall']. apply Forall_cons in Hall' as [Ht Hts2].
  pose proof (write_all_last ts1 t ts2 (_transitions m) Hsz Ht Hts2 Hfresh) as Hcell.
  apply in_bounds_true in Ht as (Hf & Hi & Hto).
  destruct (decide (to t = from t)) as [Heq|Hne].
  - eexists. split; [apply step_same |].
    + unfold cell. simpl. rewrite Hfrom, Hcell. by rewrite Heq.
    + simpl. by rewrite app_nil_r, Heq.
  - eexists. split; [apply (step_other _ (to t)) |]; simpl.
    + lia.
    + assumption.
    + unfold cell. simpl. by rewrite Hfrom.
    + by rewrite Hfrom.
    + by rewrite Hfrom.
Qed.

(** X10. "Everything else is implicitly a no-op": whatever in-range
    operations a machine with at least one state has gone through since
    its construction, a cell that none of the [addTransitions] calls named
    still holds the state of its row. *)
Theorem unnamed_cells_stay_noops ops :
  0 < states ->
  Forall (in_range states inputs) ops ->
  exists m, lifetime states inputs ops = (Returned tt, m) /\
            forall s i, s < states -> i < inputs -> (s, i) ∉ named ops ->
                        cell inputs m s i = Some s.
Proof.
  intros Hpos Hops.
  destruct (lifetime_invariant
    (fun m => forall s i, s < states -> i < inputs -> (s, i) ∉ named ops ->
                          cell inputs m s i = Some s) ops Hpos Hops)
    as (m & Hrun & _ & HI).
  - intros m (_ & _ & _ & Hcells) s i Hs Hi _. by apply Hcells.
  - intros [ts|inp] m m' Hin Hop Htab HI Hperf s i Hs Hi Hfresh; simpl in *.
    + rewrite (addTransitions_returned ts m m' (inv_size _ _ _ Htab) Hop Hperf).
      unfold cell. simpl. rewrite write_all_frame; [by apply HI | done | done |].
      intros Hk. apply Hfresh. by apply (named_elem_of ops ts).
    + destruct (step_in_range inp m Htab Hop) as (next & _ & _ & Hstep).
      rewrite Hstep in Hperf. injection Hperf as <-.
      destruct (decide (next = _current m)); by apply HI.
  - by exists m.
Qed.

(** X11. The signals a machine with at least one state has emitted since
    its construction, over any in-range operations, read as a walk: they
    come in pairs of [exited] of the state the machine was in and
    [entered] of a different state, each seen by its slots under the
    matching [current()]; the first pair leaves state 0, every pair leaves
    the state the previous one entered, and the state the last pair
    entered is the current state. *)
Theorem emissions_are_a_walk ops :
  0 < states ->
  Forall (in_range states inputs) ops ->
  exists m, lifetime states inputs ops = (Returned tt, m) /\
            walk 0 (delivered m) = Some (current m).
Proof.
  intros Hpos Hops.
  destruct (lifetime_invariant
    (fun m => walk 0 (delivered m) = Some (_current m)) ops Hpos Hops)
    as (m & Hrun & _ & HI).
  - intros m (Hd & Hc & _). by rewrite Hd, Hc.
  - intros [ts|inp] m m' Hin Hop Htab HI Hperf; simpl in *.
    + by rewrite (addTransitions_returned ts m m' (inv_size _ _ _ Htab) Hop Hperf).
    + destruct (step_in_range inp m Htab Hop) as (next & _ & _ & Hstep).
      rewrite Hstep in Hperf. injection Hperf as <-.
      destruct (decide (next = _current m)); [assumption |]. simpl.
      rewrite (walk_app _ _ _ _ HI). by apply walk_pair.
  - by exists m.
Qed.

(** X12. Over any in-range operations since its construction, a machine
    with at least one state is in state 0 or in a state that one of the
    supplied transitions has as its target. *)
Theorem current_is_initial_or_targeted ops :
  0 < states ->
  Forall (in_range states inputs) ops ->
  exists m, lifetime states inputs ops = (Returned tt, m) /\
            (current m = 0 \/ current m ∈ targets ops).
Proof.
  intros Hpos Hops.
  destruct (lifetime_invariant
    (fun m => (_current m = 0 \/ _current m ∈ targets ops) /\
              forall s i x, s < states -> i < inputs ->
                cell inputs m s i = Some x -> x = s \/ x ∈ targets ops)
    ops Hpos Hops) as (m & Hrun & _ & HI & _).
  - intros m (_ & Hc & _ & Hcells). split; [by left |].
    intros s i x Hs Hi Hx. left. rewrite Hcells in Hx by assumption. congruence.
  - intros [ts|inp] m m' Hin Hop Htab [Hcur Hcells] Hperf; simpl in *.
    + rewrite (addTransitions_returned ts m m' (inv_size _ _ _ Htab) Hop Hperf).
      split; [assumption |]. intros s i x Hs Hi. unfold cell. simpl.
      rewrite write_all_lookup; try assumption; [| apply Htab].
      destruct (last_target ts s i) as [v|] eqn:Hv; [| by apply Hcells].
      intros [= <-]. right.
      destruct (last_target_elem_of _ _ _ _ Hv) as (t & Ht & _ & <-).
      apply (targets_elem_of ops ts); [assumption |].
      apply list_elem_of_fmap. by exists t.
    + destruct (step_in_range inp m Htab Hop) as (next & Hcell & _ & Hstep).
      rewrite Hstep in Hperf. injection Hperf as <-.
      destruct (decide (next = _current m)) as [Heq|Hne]; [by split |].
      split; [| exact Hcells]. simpl.
      destruct (Hcells (_current m) inp next) as [Hsame|Htarget];
        [apply Htab | assumption | assumption | contradiction | by right].
  - exists m. by split.
Qed.

End Properties.

(** ** The printer as an instance *)

Ltac forall_by_lia := repeat (constructor; [simpl; lia |]); try constructor.

Lemma printer_invariant : table_invariant 3 2 Printer.configured.
Proof.
  split.
  - reflexivity.
  - vm_compute. forall_by_lia.
  - vm_compute. lia.
Defined.

Lemma step_exits_then_enters_witness :
  step 3 2 Printer.Operate Printer.configured =
    (Returned tt,
     mkStateMachine
       [mkEmission (exited Printer.Ready) Printer.Ready;
        mkEmission (entered Printer.Printing) Printer.Printing]
       [1; 0; 2; 1; 2; 0] Printer.Printing).
Proof.
  apply (step_exits_then_enters 3 2 Printer.configured Printer.Operate Printer.Printing).
  - exact printer_invariant.
  - unfold Printer.Operate. lia.
  - reflexivity.
  - vm_compute. lia.
Defined.

Lemma step_self_loop_is_silent_witness :
  step 3 2 Printer.RemoveDocument Printer.configured = (Returned tt, Printer.configured) /\
  exists m0, constructed 3 2 = (Returned tt, m0) /\
             delivered m0 = [] /\
             step 3 2 Printer.RemoveDocument m0 = (Returned tt, m0).
Proof.
  destruct (step_self_loop_is_silent 3 2 Printer.RemoveDocument) as [Hloop Hfresh].
  - unfold Printer.RemoveDocument. lia.
  - split.
    + apply Hloop. reflexivity.
    + apply Hfresh. lia.
Defined.

Lemma table_invariant_always_witness :
  exists m,
    lifetime 3 2
      (take 5 [AddTransitions Printer.table; Step Printer.Operate; Step Printer.Operate;
               Step Printer.RemoveDocument; Step Printer.RemoveDocument])
    = (Returned tt, m) /\ table_invariant 3 2 m.
Proof.
  apply (table_invariant_always 3 2).
  - lia.
  - repeat (constructor; [simpl; first [lia | repeat constructor] |]). constructor.
Defined.

Lemma dispatch_emits_wanted_witness :
  enteredInternal Printer.Finished 3 Printer.configured =
    (Returned tt,
     mkStateMachine [mkEmission (entered Printer.Finished) Printer.Ready]
                    [1; 0; 2; 1; 2; 0] Printer.Ready) /\
  exitedInternal Printer.Finished 3 Printer.configured =
    (Returned tt,
     mkStateMachine [mkEmission (exited Printer.Finished) Printer.Ready]
                    [1; 0; 2; 1; 2; 0] Printer.Ready).
Proof.
  apply (dispatch_emits_wanted 3 Printer.Finished Printer.configured).
  unfold Printer.Finished. lia.
Defined.

Lemma addTransitions_out_of_bounds_asserts_witness :
  exists pre bad post,
    [mkTransition 0 0 1; mkTransition 3 0 0; mkTransition 1 0 2] = pre ++ bad :: post /\
    Forall (fun t => in_bounds 3 2 t = true) pre /\
    (3 <= from bad \/ 2 <= input bad \/ 3 <= to bad) /\
    (addTransitions 3 2 [mkTransition 0 0 1; mkTransition 3 0 0; mkTransition 1 0 2]
       (value_initialised 3 2)).1 =
      AssertFailed (OutOfBoundsState (from bad) (input bad) (to bad)) /\
    forall l1 t l2,
      pre = l1 ++ t :: l2 -> key t ∉ key <$> l2 ->
      cell 2 (addTransitions 3 2 [mkTransition 0 0 1; mkTransition 3 0 0; mkTransition 1 0 2]
                (value_initialised 3 2)).2 (from t) (input t) = Some (to t).
Proof.
  apply (addTransitions_out_of_bounds_asserts 3 2).
  - reflexivity.
  - apply Exists_cons_tl, Exists_cons_hd. simpl. lia.
Defined.

Lemma addTransitions_last_write_wins_witness :
  cell 2 (addTransitions 3 2
            ([] ++ mkTransition 0 0 1 :: [mkTransition 1 0 2]
                ++ mkTransition 0 0 2 :: [mkTransition 2 1 0])
            (value_initialised 3 2)).2 0 0 = Some 2.
Proof.
  apply (addTransitions_last_write_wins 3 2 [] (mkTransition 0 0 1) [mkTransition 1 0 2]
           (mkTransition 0 0 2) [mkTransition 2 1 0] (value_initialised 3 2)).
  - reflexivity.
  - repeat (constructor; [reflexivity |]). constructor.
  - reflexivity.
  - simpl. lia.
  - simpl. intros Hin. apply list_elem_of_singleton in Hin. discriminate Hin.
Defined.

Lemma addTransitions_order_independent_witness :
  (addTransitions 3 2 Printer.table (value_initialised 3 2)).1 = Returned tt /\
  addTransitions 3 2
    [mkTransition 1 0 2; mkTransition 0 0 1; mkTransition 2 1 0] (value_initialised 3 2)
  = addTransitions 3 2 Printer.table (value_initialised 3 2).
Proof.
  apply (addTransitions_order_independent 3 2).
  - reflexivity.
  - repeat (constructor; [reflexivity |]). constructor.
  - refine (bool_decide_unpack _ _). vm_compute. exact I.
  - apply perm_swap.
Defined.

Lemma addTransitions_frame_witness :
  exists m', addTransitions 3 2 Printer.table Printer.configured = (Returned tt, m') /\
             current m' = current Printer.configured /\
             delivered m' = delivered Printer.configured /\
             forall s i, s < 3 -> i < 2 -> (s, i) ∉ key <$> Printer.table ->
                         cell 2 m' s i = cell 2 Printer.configured s i.
Proof.
  apply (addTransitions_frame 3 2 Printer.table Printer.configured).
  - reflexivity.
  - repeat (constructor; [reflexivity |]). constructor.
Defined.

Lemma addTransitions_stops_at_first_rejected_witness :
  addTransitions 3 2 [mkTransition 0 0 1] (value_initialised 3 2) =
    (Returned tt, mkStateMachine [] [1; 0; 0; 0; 0; 0] 0) /\
  addTransitions 3 2 ([mkTransition 0 0 1] ++ mkTransition 3 0 0 :: [mkTransition 1 0 2])
    (value_initialised 3 2) =
    (AssertFailed (OutOfBoundsState 3 0 0),
     (addTransitions 3 2 [mkTransition 0 0 1] (value_initialised 3 2)).2) /\
  forall s i, i < 2 -> (s, i) ∉ key <$> [mkTransition 0 0 1] ->
    cell 2 (addTransitions 3 2
              ([mkTransition 0 0 1] ++ mkTransition 3 0 0 :: [mkTransition 1 0 2])
              (value_initialised 3 2)).2 s i =
    cell 2 (value_initialised 3 2) s i.
Proof.
  apply (addTransitions_stops_at_first_rejected 3 2 [mkTransition 0 0 1]
           (mkTransition 3 0 0) [mkTransition 1 0 2] (value_initialised 3 2)).
  - reflexivity.
  - repeat (constructor; [reflexivity |]). constructor.
  - reflexivity.
Defined.

(** ** Instances of the further properties *)

Lemma dispatch_out_of_range_is_unreachable_witness :
  enteredInternal 3 3 Printer.configured = (AssertFailed Unreachable, Printer.configured) /\
  exitedInternal 3 3 Printer.configured = (AssertFailed Unreachable, Printer.configured).
Proof.
  apply (dispatch_out_of_range_is_unreachable 3 3 Printer.configured). lia.
Defined.


Lemma step_unchecked_input_reads_other_row_witness :
  exists next,
    cell 2 Printer.configured (current Printer.configured + 2 / 2) (2 mod 2) = Some next /\
    step 3 2 2 Printer.configured =
      (Returned tt,
       if decide (next = current Printer.configured) then Printer.configured
       else mkStateMachine
              (delivered Printer.configured ++
                 [mkEmission (exited (current Printer.configured))
                             (current Printer.configured);
                  mkEmission (entered next) next])
              (_transitions Printer.configured) next).
Proof.
  apply (step_unchecked_input_reads_other_row 3 2 Printer.configured 2).
  - exact printer_invariant.
  - vm_compute. lia.
Defined.

Lemma addTransitions_idempotent_witness :
  (addTransitions 3 2 Printer.table;; addTransitions 3 2 Printer.table)
    (value_initialised 3 2) =
  addTransitions 3 2 Printer.table (value_initialised 3 2).
Proof.
  apply (addTransitions_idempotent 3 2 Printer.table (value_initialised 3 2)).
  reflexivity.
Defined.

Lemma addTransitions_cell_witness :
  cell 2 (addTransitions 3 2 [mkTransition 0 0 1; mkTransition 0 0 2]
            (value_initialised 3 2)).2 0 0 =
    match last_target [mkTransition 0 0 1; mkTransition 0 0 2] 0 0 with
    | Some target => Some target
    | None => cell 2 (value_initialised 3 2) 0 0
    end.
Proof.
  apply (addTransitions_cell 3 2 [mkTransition 0 0 1; mkTransition 0 0 2]
           (value_initialised 3 2) 0 0).
  - reflexivity.
  - repeat (constructor; [reflexivity |]). constructor.
  - lia.
  - lia.
Defined.

Lemma configured_transition_is_taken_witness :
  exists m',
    (addTransitions 3 2 ([] ++ mkTransition 0 0 1 :: [mkTransition 1 0 2]);;
     step 3 2 (input (mkTransition 0 0 1))) Printer.configured
      = (Returned tt, m') /\
    current m' = to (mkTransition 0 0 1) /\
    delivered m' =
      delivered Printer.configured ++
      (if decide (to (mkTransition 0 0 1) = from (mkTransition 0 0 1)) then []
       else [mkEmission (exited (from (mkTransition 0 0 1))) (from (mkTransition 0 0 1));
             mkEmission (entered (to (mkTransition 0 0 1))) (to (mkTransition 0 0 1))]).
Proof.
  apply (configured_transition_is_taken 3 2 [] (mkTransition 0 0 1)
           [mkTransition 1 0 2] Printer.configured).
  - exact printer_invariant.
  - repeat (constructor; [reflexivity |]). constructor.
  - simpl. intros Hin. apply list_elem_of_singleton in Hin. discriminate Hin.
  - reflexivity.
Defined.

Lemma unnamed_cells_stay_noops_witness :
  exists m,
    lifetime 3 2 [AddTransitions Printer.table; Step Printer.Operate; Step Printer.Operate]
      = (Returned tt, m) /\
    forall s i, s < 3 -> i < 2 ->
      (s, i) ∉ named [AddTransitions Printer.table; Step Printer.Operate;
                      Step Printer.Operate] ->
      cell 2 m s i = Some s.
Proof.
  apply (unnamed_cells_stay_noops 3 2).
  - lia.
  - repeat (constructor; [simpl; first [lia | repeat constructor] |]). constructor.
Defined.

Lemma emissions_are_a_walk_witness :
  exists m,
    lifetime 3 2 [AddTransitions Printer.table; Step Printer.Operate; Step Printer.Operate]
      = (Returned tt, m) /\
    walk 0 (delivered m) = Some (current m).
Proof.
  apply (emissions_are_a_walk 3 2).
  - lia.
  - repeat (constructor; [simpl; first [lia | repeat constructor] |]). constructor.
Defined.

Lemma current_is_initial_or_targeted_witness :
  exists m,
    lifetime 3 2 [AddTransitions Printer.table; Step Printer.Operate; Step Printer.Operate]
      = (Returned tt, m) /\
    (current m = 0 \/
     current m ∈ targets [AddTransitions Printer.table; Step Printer.Operate;
                          Step Printer.Operate]).
Proof.
  apply (current_is_initial_or_targeted 3 2).
  - lia.
  - repeat (constructor; [simpl; first [lia | repeat constructor] |]). constructor.
Defined.
